(** * my-app: the promise-chain demo and the Steam OpenID session tutorial

    A shallow embedding of [src/App.js].  The file holds two artifacts:
    the React component [App] with its [doPromise] method, and the
    Express/passport script that wires a Steam OpenID login to a session.

    JavaScript strings are modelled as [string]; the only character class
    the script inspects is [\d], which matches the ASCII digits
    [0] .. [9] and nothing else, so every other code unit behaves like
    any other non-digit.  JavaScript objects used as maps ([request.query],
    the request headers) are [gmap string _]. *)

From Stdlib Require Import ZArith Ascii String.
From stdpp Require Import base option list strings gmap.

Local Open Scope string_scope.

(** ** The regular expression [/\d+$/] *)

Module Regex.

(** [\d]: an ASCII digit. *)
Definition is_digit (c : ascii) : bool :=
  let n := nat_of_ascii c in (48 <=? n)%nat && (n <=? 57)%nat.

(** [\d+$] anchored at the current position: the rest of the subject is
    a non-empty run of digits that reaches the end of the input.  The
    greedy [\d+] takes every digit it can; giving digits back never
    helps, because [$] would then stand in front of a digit. *)
Fixpoint digits_to_end (s : string) : bool :=
  match s with
  | EmptyString => false
  | String c EmptyString => is_digit c
  | String c rest => is_digit c && digits_to_end rest
  end.

(** [subject.match(/\d+$/)]: the engine tries the start positions from
    left to right and returns the first match; [None] is JavaScript's
    [null], [Some m] the match array whose element [0] is [m]. *)
Fixpoint match_digits_at_end (subject : string) : option string :=
  match subject with
  | EmptyString => None
  | String c rest =>
      if digits_to_end subject then Some subject
      else match_digits_at_end rest
  end.

(** The last character of a string, when there is one. *)
Fixpoint last_char (s : string) : option ascii :=
  match s with
  | EmptyString => None
  | String c EmptyString => Some c
  | String _ rest => last_char rest
  end.

(** The subject ends in at least one digit. *)
Definition ends_in_digit (s : string) : bool :=
  match last_char s with
  | Some c => is_digit c
  | None => false
  end.

(** Every character of the string is a digit. *)
Fixpoint all_digits (s : string) : bool :=
  match s with
  | EmptyString => true
  | String c rest => is_digit c && all_digits rest
  end.

End Regex.

(** ** Users and the passport callbacks *)

(** The user object built at lines 285-289 and 343-346. *)
Record User := mkUser { identifier : string; steamId : string }.

(** JavaScript exceptions that the script can raise.  Reading element [0]
    of [null] raises a [TypeError]. *)
Inductive JsError := TypeError.

(** [Error.prototype.name] of the exception. *)
Definition error_name (e : JsError) : string :=
  match e with
  | TypeError => "TypeError"
  end.

(** What a passport callback hands to its continuation [done]:
    [done(err)], [done(null, false)] or [done(null, user)]
    (lines 290-293). *)
Inductive DoneCall (A : Type) :=
  | DoneError (err : JsError)
  | DoneFalse
  | DoneWith (result : A).
Arguments DoneError {A} err.
Arguments DoneFalse {A}.
Arguments DoneWith {A} result.

(** The outcome of running a callback: it either reaches a call of [done],
    or an exception escapes it before [done] is called. *)
Inductive Outcome (A : Type) :=
  | Called (d : DoneCall A)
  | Throws (e : JsError).
Arguments Called {A} d.
Arguments Throws {A} e.

(** [identifier.match(/\d+$/)[0]]: indexing [null] throws. *)
Definition match_index0 (subject : string) : JsError + string :=
  match Regex.match_digits_at_end subject with
  | Some m => inr m
  | None => inl TypeError
  end.

(** The validate callback of [SteamStrategy] (lines 278-296); the body is
    the function given to [process.nextTick]. *)
Definition validate (identifier : string) : Outcome User :=
  match match_index0 identifier with
  | inl e => Throws e
  | inr digits =>
      let user := {| identifier := identifier; steamId := digits |} in
      Called (DoneWith user)
  end.

(** [passport.serializeUser] callback (lines 323-325). *)
Definition serializeUser (user : User) : Outcome string :=
  Called (DoneWith (identifier user)).

(** [passport.deserializeUser] callback (lines 339-347). *)
Definition deserializeUser (identifier : string) : Outcome User :=
  match match_index0 identifier with
  | inl e => Throws e
  | inr digits =>
      Called (DoneWith {| identifier := identifier; steamId := digits |})
  end.

(** Deserializing the key that serializing a user produced. *)
Definition deserialize_serialized (user : User) : Outcome User :=
  match serializeUser user with
  | Called (DoneWith key) => deserializeUser key
  | Called (DoneError e) => Called (DoneError e)
  | Called DoneFalse => Called DoneFalse
  | Throws e => Throws e
  end.

(** ** Requests, sessions and responses *)

(** A value of [request.query] as the query-string parser builds it: a
    string, or an array or object of strings for repeated and bracketed
    parameters. *)
Inductive QueryValue :=
  | QString (s : string)
  | QArray (items : list string)
  | QObject (fields : list (string * string)).

(** [request.session.passport], the object in which passport keeps the
    key returned by [serializeUser]. *)
Record PassportData := mkPassportData { passport_user : option string }.

Record Session := mkSession { passport : option PassportData }.

Record Request := mkRequest {
  user : option User;
  session : Session;
  query : gmap string QueryValue;
  headers : gmap string string
}.

(** The response under construction: the chunks written so far, the
    redirect target once [redirect] was called, and whether the response
    has been ended. *)
Record Response := mkResponse {
  body : string;
  location : option string;
  ended : bool
}.

Definition fresh_response : Response :=
  {| body := EmptyString; location := None; ended := false |}.

Module Js.

(** The double-quote character, as a one-character string. *)
Definition dq : string := String (ascii_of_nat 34) EmptyString.

(** Truthiness of a string: only the empty string is falsy. *)
Definition truthy_string (s : string) : bool :=
  match s with
  | EmptyString => false
  | String _ _ => true
  end.

(** Truthiness of a possibly undefined query value: arrays and objects
    are always truthy. *)
Definition truthy_query (v : option QueryValue) : bool :=
  match v with
  | Some (QString s) => truthy_string s
  | Some (QArray _) => true
  | Some (QObject _) => true
  | None => false
  end.

(** [a && b] for an object or [undefined] [a] and a string [b]: an
    object is truthy, so the result is [b]; [undefined] is falsy and is
    the result itself. *)
Definition and_object {A : Type} (a : option A) (b : string) : option string :=
  match a with
  | Some _ => Some b
  | None => None
  end.

(** [a || b] for a possibly undefined string [a] and a string [b]. *)
Definition or_string (a : option string) (b : string) : string :=
  match a with
  | Some s => if truthy_string s then s else b
  | None => b
  end.

Definition hex_digit (n : nat) : ascii :=
  match String.get n "0123456789abcdef" with
  | Some c => c
  | None => "0"%char
  end.

(** The escape that [JSON.stringify] writes for one character. *)
Definition json_escape (c : ascii) : string :=
  let n := nat_of_ascii c in
  if (n =? 8)%nat then "\b"
  else if (n =? 9)%nat then "\t"
  else if (n =? 10)%nat then "\n"
  else if (n =? 12)%nat then "\f"
  else if (n =? 13)%nat then "\r"
  else if (n =? 34)%nat then "\" +:+ dq
  else if (n =? 92)%nat then "\\"
  else if (n <? 32)%nat then
    "\u00" +:+ String (hex_digit (n / 16)) (String (hex_digit (n mod 16)) EmptyString)
  else String c EmptyString.

Fixpoint json_escape_all (s : string) : string :=
  match s with
  | EmptyString => EmptyString
  | String c rest => json_escape c +:+ json_escape_all rest
  end.

(** A character that [JSON.stringify] copies as it is: not a control
    character, not the double quote, not the backslash. *)
Definition plain_char (c : ascii) : bool :=
  let n := nat_of_ascii c in
  (32 <=? n)%nat && negb (n =? 34)%nat && negb (n =? 92)%nat.

Fixpoint all_plain (s : string) : bool :=
  match s with
  | EmptyString => true
  | String c rest => plain_char c && all_plain rest
  end.

(** [JSON.stringify] of a string. *)
Definition json_string (s : string) : string :=
  dq +:+ json_escape_all s +:+ dq.

(** [JSON.stringify(user)] for a user object. *)
Definition JSON_stringify (u : User) : string :=
  "{" +:+ dq +:+ "identifier" +:+ dq +:+ ":" +:+ json_string (identifier u)
  +:+ "," +:+ dq +:+ "steamId" +:+ dq +:+ ":" +:+ json_string (steamId u)
  +:+ "}".

End Js.

(** [response.write(chunk)]. *)
Definition write (chunk : string) (response : Response) : Response :=
  {| body := body response +:+ chunk;
     location := location response;
     ended := ended response |}.

(** [response.redirect(url)]: sets the target and ends the response. *)
Definition redirect (url : string) (response : Response) : Response :=
  {| body := body response; location := Some url; ended := true |}.

(** [response.send()]. *)
Definition send (response : Response) : Response :=
  {| body := body response; location := location response; ended := true |}.

(** [request.get(name)]: the header of that name, [None] for [undefined]. *)
Definition request_get (request : Request) (name : string) : option string :=
  headers request !! name.

(** [request.logout()], the method passport adds to the request: as the
    script's comment at lines 413-416 describes it, it clears the login
    from the session; [request.user] is unset with it. *)
Definition logout (request : Request) : Request :=
  {| user := None;
     session :=
       {| passport :=
            match passport (session request) with
            | Some _ => Some {| passport_user := None |}
            | None => None
            end |};
     query := query request;
     headers := headers request |}.

(** The key of the user the session holds, if any. *)
Definition session_user (s : Session) : option string :=
  match passport s with
  | Some p => passport_user p
  | None => None
  end.

(** The two resting states of the login lifecycle. *)
Inductive AuthState := ANONYMOUS | AUTHENTICATED.

Definition auth_state (request : Request) : AuthState :=
  match user request, session_user (session request) with
  | None, None => ANONYMOUS
  | _, _ => AUTHENTICATED
  end.

(** A route handler reads and updates the request and the response. *)
Definition Handler := Request -> Response -> Request * Response.

(** [GET /auth/openid/return], the function after [passport.authenticate]
    (lines 403-409). *)
Definition auth_openid_return : Handler := fun request response =>
  match user request with
  | Some u => (request, redirect ("/?steamid=" +:+ steamId u) response)
  | None => (request, redirect "/?failed" response)
  end.

(** [POST /auth/logout] (lines 421-426). *)
Definition auth_logout : Handler := fun request response =>
  let request := logout request in
  (request, redirect (Js.or_string (request_get request "Referer") "/") response).

(** The chunks that [GET /] writes, with [Js.dq] for the quote characters
    inside the HTML. *)
Definition doctype_html : string := "<!DOCTYPE html>".

Definition logout_form_open : string :=
  "<form action=" +:+ Js.dq +:+ "/auth/logout" +:+ Js.dq
  +:+ " method=" +:+ Js.dq +:+ "post" +:+ Js.dq +:+ ">".

Definition logout_form_button : string :=
  "<input type=" +:+ Js.dq +:+ "submit" +:+ Js.dq
  +:+ " value=" +:+ Js.dq +:+ "Log Out" +:+ Js.dq +:+ "/></form>".

Definition not_logged_in : string := "Not logged in.".

Definition login_form_open : string :=
  "<form action=" +:+ Js.dq +:+ "/auth/openid" +:+ Js.dq
  +:+ " method=" +:+ Js.dq +:+ "post" +:+ Js.dq +:+ ">".

Definition login_form_button : string :=
  ("<input name=" +:+ Js.dq +:+ "submit" +:+ Js.dq
   +:+ " type=" +:+ Js.dq +:+ "image" +:+ Js.dq
   +:+ " src=" +:+ Js.dq +:+ "http://steamcommunity-a.")
  +:+ ("akamaihd.net/public/images/signinthroughsteam/sits_small.png" +:+ Js.dq +:+ " ")
  +:+ ("alt=" +:+ Js.dq +:+ "Sign in through Steam" +:+ Js.dq +:+ "/></form>").

(** The login form, both chunks. *)
Definition login_form : string := login_form_open +:+ login_form_button.

(** The logout form, both chunks. *)
Definition logout_form : string := logout_form_open +:+ logout_form_button.

(** [GET /] (lines 435-453). *)
Definition get_root : Handler := fun request response =>
  let response := write doctype_html response in
  let response :=
    match user request with
    | Some u =>
        let response :=
          write (Js.or_string
                   (Js.and_object (passport (session request))
                                  (Js.JSON_stringify u))
                   "None") response in
        let response := write logout_form_open response in
        write logout_form_button response
    | None =>
        let response :=
          if Js.truthy_query (query request !! "steamid")
          then write not_logged_in response
          else response in
        let response := write login_form_open response in
        write login_form_button response
    end in
  (request, send response).

(** ** The route [GET /auth/openid/return] as a whole (line 402)

    Line 402 puts [passport.authenticate('openid')], called with no
    options, in front of the function of lines 403-409.  passport and its
    OpenID strategy are libraries that the script requires; they are not
    part of it.  The definitions below record what that middleware does
    for this call: when the provider rejected or cancelled the login it
    answers the request itself with status 401 and does not call the next
    function; when the provider verified the assertion it runs the
    validate callback on the claimed identifier, and for [done(null,
    user)] it logs the user in (the key from [serializeUser] goes into
    [session.passport.user], the user into [request.user]) and calls the
    next function. *)

(** What the provider said about the assertion in the callback request. *)
Inductive Verdict :=
  | Verified (claimed : string)
  | ProviderRejected.

(** [request.logIn(user)] with the key that [serializeUser] returned. *)
Definition logIn (u : User) (key : string) (request : Request) : Request :=
  {| user := Some u;
     session := {| passport := Some {| passport_user := Some key |} |};
     query := query request;
     headers := headers request |}.

(** How the route ends: the function of lines 403-409 ran; or passport
    answered 401 itself and the function was not called; or an error was
    passed on ([next(err)], with the exception when there is one); or an
    exception escaped the callback that [process.nextTick] runs. *)
Inductive RouteResult :=
  | Handled (request : Request) (response : Response)
  | Unauthorized (request : Request)
  | Errored (e : option JsError)
  | Uncaught (e : JsError).

Definition auth_openid_return_route (verdict : Verdict)
    (request : Request) (response : Response) : RouteResult :=
  match verdict with
  | ProviderRejected => Unauthorized request
  | Verified claimed =>
      match validate claimed with
      | Called (DoneWith u) =>
          match serializeUser u with
          | Called (DoneWith key) =>
              let '(request, response) :=
                auth_openid_return (logIn u key request) response in
              Handled request response
          | Called (DoneError e) => Errored (Some e)
          | Called DoneFalse => Errored None
          | Throws e => Errored (Some e)
          end
      | Called DoneFalse => Unauthorized request
      | Called (DoneError e) => Errored (Some e)
      | Throws e => Uncaught e
      end
  end.

(** [needle] occurs somewhere in [haystack]. *)
Fixpoint contains (needle haystack : string) : bool :=
  String.prefix needle haystack
  || match haystack with
     | EmptyString => false
     | String _ rest => contains needle rest
     end.

(** ** Promises and the microtask queue

    The part of the ECMAScript promise machinery that [doPromise] uses:
    promise objects with their reaction lists, the resolving functions,
    [then]/[catch], and the queue of jobs the engine runs once the
    synchronous code has returned.  A promise is named by its index in
    the store.  The arrow functions of [doPromise] are first-order values
    ([Closure]) that carry the variables they capture. *)

Module Promise.

Inductive Value :=
  | VUndefined
  | VNumber (n : Z)
  | VPromise (p : nat)
  | VTypeError.

#[global] Instance Value_eq_dec : EqDecision Value.
Proof. solve_decision. Defined.

(** The callbacks of [doPromise] (lines 32-42). *)
Inductive Closure :=
  | on_p1 (_await p2 : nat)  (* _p1 => { console.log(_p1, _await); return p2; } *)
  | on_p2 (p3 : nat)         (* _p2 => { console.log(_p2); return p3; } *)
  | on_p3                    (* _p3 => { console.log(_p3); } *)
  | on_err.                  (* err => { console.log(err); } *)

(** What a reaction calls: nothing (the argument of [then] was left
    out), a callback of the program, or one of the two resolving
    functions of a promise. *)
Inductive Callback :=
  | NoHandler
  | Call (f : Closure)
  | ResolveFunction (target : nat)
  | RejectFunction (target : nat).

Record Reaction := mkReaction {
  on_fulfilled : Callback;
  on_rejected : Callback;
  derived : nat
}.

Inductive PromiseState :=
  | Pending (reactions : list Reaction)
  | Fulfilled (value : Value)
  | Rejected (reason : Value).

Inductive ReactionType := Fulfill | Reject.

Inductive Job :=
  | ReactionJob (type : ReactionType) (handler : Callback)
                (capability : nat) (argument : Value)
  | ResolveThenableJob (promise_to_resolve thenable : nat).

#[global] Instance Closure_eq_dec : EqDecision Closure.
Proof. solve_decision. Defined.

#[global] Instance Callback_eq_dec : EqDecision Callback.
Proof. solve_decision. Defined.

#[global] Instance Reaction_eq_dec : EqDecision Reaction.
Proof. solve_decision. Defined.

#[global] Instance PromiseState_eq_dec : EqDecision PromiseState.
Proof. solve_decision. Defined.

Record State := mkState {
  promises : list PromiseState;
  jobs : list Job;
  console : list (list Value)
}.

Definition initial : State :=
  {| promises := []; jobs := []; console := [] |}.

Definition set_promise (p : nat) (s : PromiseState) (st : State) : State :=
  {| promises := <[p := s]> (promises st);
     jobs := jobs st;
     console := console st |}.

Definition enqueue (new_jobs : list Job) (st : State) : State :=
  {| promises := promises st;
     jobs := jobs st ++ new_jobs;
     console := console st |}.

(** [console.log(...args)]. *)
Definition console_log (args : list Value) (st : State) : State :=
  {| promises := promises st;
     jobs := jobs st;
     console := console st ++ [args] |}.

(** A fresh pending promise. *)
Definition allocate (st : State) : nat * State :=
  (length (promises st),
   {| promises := promises st ++ [Pending []];
      jobs := jobs st;
      console := console st |}).

(** FulfillPromise: settle a pending promise and schedule its
    fulfilment reactions.  A promise that is already settled stays as it
    is (the engine's resolving functions are guarded the same way; no
    promise of [doPromise] is resolved twice). *)
Definition fulfill_promise (p : nat) (v : Value) (st : State) : State :=
  match promises st !! p with
  | Some (Pending reactions) =>
      enqueue
        (map (fun r => ReactionJob Fulfill (on_fulfilled r) (derived r) v) reactions)
        (set_promise p (Fulfilled v) st)
  | _ => st
  end.

(** RejectPromise. *)
Definition reject_promise (p : nat) (reason : Value) (st : State) : State :=
  match promises st !! p with
  | Some (Pending reactions) =>
      enqueue
        (map (fun r => ReactionJob Reject (on_rejected r) (derived r) reason) reactions)
        (set_promise p (Rejected reason) st)
  | _ => st
  end.

(** The resolve function of promise [p]: resolving with the promise
    itself is a [TypeError]; resolving with another promise schedules
    the job that will call its [then]; any other value fulfils. *)
Definition resolve_promise (p : nat) (resolution : Value) (st : State) : State :=
  match resolution with
  | VPromise q =>
      if decide (q = p) then reject_promise p VTypeError st
      else enqueue [ResolveThenableJob p q] st
  | _ => fulfill_promise p resolution st
  end.

(** [new Promise(executor)]: the executor runs at once and receives
    the resolving functions of the new promise, here the promise's
    name. *)
Definition new_Promise (executor : nat -> State -> State) (st : State) : nat * State :=
  let '(p, st) := allocate st in
  (p, executor p st).

(** [p.then(onFulfilled, onRejected)]: returns the derived promise. *)
Definition then_ (p : nat) (onFulfilled onRejected : Callback) (st : State)
  : nat * State :=
  let '(d, st) := allocate st in
  let reaction :=
    {| on_fulfilled := onFulfilled; on_rejected := onRejected; derived := d |} in
  match promises st !! p with
  | Some (Pending reactions) =>
      (d, set_promise p (Pending (reactions ++ [reaction])) st)
  | Some (Fulfilled v) =>
      (d, enqueue [ReactionJob Fulfill onFulfilled d v] st)
  | Some (Rejected reason) =>
      (d, enqueue [ReactionJob Reject onRejected d reason] st)
  | None => (d, st)
  end.

(** [p.catch(onRejected)] is [p.then(undefined, onRejected)]. *)
Definition catch_ (p : nat) (onRejected : Callback) (st : State) : nat * State :=
  then_ p NoHandler onRejected st.

(** How a call ends. *)
Inductive Completion :=
  | Return (v : Value)
  | Throw (v : Value).

(** The bodies of the callbacks of [doPromise]. *)
Definition call_closure (f : Closure) (argument : Value) (st : State)
  : Completion * State :=
  match f with
  | on_p1 _await p2 =>
      let st := console_log [argument; VPromise _await] st in
      (Return (VPromise p2), st)
  | on_p2 p3 =>
      let st := console_log [argument] st in
      (Return (VPromise p3), st)
  | on_p3 =>
      let st := console_log [argument] st in
      (Return VUndefined, st)
  | on_err =>
      let st := console_log [argument] st in
      (Return VUndefined, st)
  end.

(** Calling the handler of a reaction. *)
Definition call_handler (type : ReactionType) (handler : Callback)
    (argument : Value) (st : State) : Completion * State :=
  match handler with
  | NoHandler =>
      match type with
      | Fulfill => (Return argument, st)
      | Reject => (Throw argument, st)
      end
  | Call f => call_closure f argument st
  | ResolveFunction target => (Return VUndefined, resolve_promise target argument st)
  | RejectFunction target => (Return VUndefined, reject_promise target argument st)
  end.

(** Running one job. *)
Definition run_job (j : Job) (st : State) : State :=
  match j with
  | ReactionJob type handler capability argument =>
      match call_handler type handler argument st with
      | (Return v, st) => resolve_promise capability v st
      | (Throw reason, st) => reject_promise capability reason st
      end
  | ResolveThenableJob promise_to_resolve thenable =>
      snd (then_ thenable (ResolveFunction promise_to_resolve)
                          (RejectFunction promise_to_resolve) st)
  end.

(** One turn of the microtask loop: take the oldest job and run it. *)
Definition step (st : State) : State :=
  match jobs st with
  | [] => st
  | j :: rest =>
      run_job j {| promises := promises st; jobs := rest; console := console st |}
  end.

(** [n] turns of the loop. *)
Fixpoint run (n : nat) (st : State) : State :=
  match n with
  | O => st
  | S n => run n (step st)
  end.

(** The promises that the body of [doPromise] names. *)
Record Locals := mkLocals { p1 : nat; p2 : nat; p3 : nat; _await : nat }.

(** The body of [doPromise] (lines 28-42); [settle_await] is what the
    executor of the fourth promise does with it. *)
Definition doPromise_body (settle_await : nat -> State -> State) (st : State)
  : Locals * State :=
  let '(p1, st) := new_Promise (fun p => resolve_promise p (VNumber 1)) st in
  let '(p2, st) := new_Promise (fun p => resolve_promise p (VNumber 2)) st in
  let '(p3, st) := new_Promise (fun p => resolve_promise p (VNumber 3)) st in
  let '(_await, st) := new_Promise settle_await st in
  let '(d1, st) := then_ p1 (Call (on_p1 _await p2)) NoHandler st in
  let '(d2, st) := then_ d1 (Call (on_p2 p3)) NoHandler st in
  let '(d3, st) := then_ d2 (Call on_p3) NoHandler st in
  let '(_, st) := catch_ d3 (Call on_err) st in
  ({| p1 := p1; p2 := p2; p3 := p3; _await := _await |}, st).

(** An [async] function: its promise is created on entry and resolved
    with the return value, here [undefined], when the body is done. *)
Definition async_doPromise (settle_await : nat -> State -> State) (st : State)
  : Locals * State :=
  let '(result, st) := allocate st in
  let '(locals, st) := doPromise_body settle_await st in
  (locals, resolve_promise result VUndefined st).

(** [doPromise] as written: the fourth executor is [(a, b) => { a() }]. *)
Definition doPromise (st : State) : Locals * State :=
  async_doPromise (fun p => resolve_promise p VUndefined) st.

(** The first argument of every [console.log] call so far. *)
Definition logged_first (st : State) : list (option Value) :=
  map (fun args => head args) (console st).

(** The job runs the callback [f]. *)
Definition invokes (f : Closure) (j : Job) : bool :=
  match j, f with
  | ReactionJob _ (Call on_err) _ _, on_err => true
  | ReactionJob _ (Call on_p3) _ _, on_p3 => true
  | ReactionJob _ (Call (on_p2 a)) _ _, on_p2 b => bool_decide (a = b)
  | ReactionJob _ (Call (on_p1 a b)) _ _, on_p1 c d => bool_decide (a = c /\ b = d)
  | _, _ => false
  end.

(** The job is a rejection reaction. *)
Definition is_reject_job (j : Job) : bool :=
  match j with
  | ReactionJob Reject _ _ _ => true
  | _ => false
  end.

Definition is_rejected (s : PromiseState) : bool :=
  match s with
  | Rejected _ => true
  | _ => false
  end.

(** The three entries that the [then] callbacks write to the console. *)
Definition expected_console (locals : Locals) : list (list Value) :=
  [[VNumber 1; VPromise (_await locals)]; [VNumber 2]; [VNumber 3]].

(** The promise is fulfilled or rejected. *)
Definition is_settled (s : PromiseState) : bool :=
  match s with
  | Pending _ => false
  | _ => true
  end.

(** Every settled promise of the first store is the same in the second. *)
Definition keeps_settled (ps ps' : list PromiseState) : Prop :=
  forall p s, ps !! p = Some s -> is_settled s = true -> ps' !! p = Some s.

(** How the executor of the fourth promise may settle it. *)
Inductive Settle :=
  | ResolveWith (w : Value)
  | RejectWith (reason : Value)
  | LeavePending.

Definition settle_with (s : Settle) (p : nat) (st : State) : State :=
  match s with
  | ResolveWith w => resolve_promise p w st
  | RejectWith reason => reject_promise p reason st
  | LeavePending => st
  end.

(** *** Running on top of an earlier state

    [doPromise] may be called when promises exist already and lines have
    been logged.  [framed base st] is the state [st] placed on top of
    [base]: the promises of [base] come first, so every promise name of
    [st] moves up by their number. *)

Definition shift_value (k : nat) (v : Value) : Value :=
  match v with
  | VPromise p => VPromise (k + p)
  | _ => v
  end.

Definition shift_closure (k : nat) (f : Closure) : Closure :=
  match f with
  | on_p1 _await p2 => on_p1 (k + _await) (k + p2)
  | on_p2 p3 => on_p2 (k + p3)
  | on_p3 => on_p3
  | on_err => on_err
  end.

Definition shift_callback (k : nat) (h : Callback) : Callback :=
  match h with
  | NoHandler => NoHandler
  | Call f => Call (shift_closure k f)
  | ResolveFunction target => ResolveFunction (k + target)
  | RejectFunction target => RejectFunction (k + target)
  end.

Definition shift_reaction (k : nat) (r : Reaction) : Reaction :=
  {| on_fulfilled := shift_callback k (on_fulfilled r);
     on_rejected := shift_callback k (on_rejected r);
     derived := k + derived r |}.

Definition shift_promise (k : nat) (s : PromiseState) : PromiseState :=
  match s with
  | Pending reactions => Pending (map (shift_reaction k) reactions)
  | Fulfilled v => Fulfilled (shift_value k v)
  | Rejected reason => Rejected (shift_value k reason)
  end.

Definition shift_job (k : nat) (j : Job) : Job :=
  match j with
  | ReactionJob type handler capability argument =>
      ReactionJob type (shift_callback k handler) (k + capability)
                  (shift_value k argument)
  | ResolveThenableJob promise_to_resolve thenable =>
      ResolveThenableJob (k + promise_to_resolve) (k + thenable)
  end.

Definition shift_completion (k : nat) (c : Completion) : Completion :=
  match c with
  | Return v => Return (shift_value k v)
  | Throw v => Throw (shift_value k v)
  end.

Definition shift_locals (k : nat) (l : Locals) : Locals :=
  {| p1 := k + p1 l; p2 := k + p2 l; p3 := k + p3 l; _await := k + _await l |}.

Definition framed (base st : State) : State :=
  let k := length (promises base) in
  {| promises := promises base ++ map (shift_promise k) (promises st);
     jobs := jobs base ++ map (shift_job k) (jobs st);
     console := console base ++ map (map (shift_value k)) (console st) |}.

End Promise.

(** * Properties *)

(** ** What [/\d+$/] matches *)

Section RegexFacts.
Import Regex.

Lemma digits_to_end_cons c s :
  digits_to_end (String c s) =
  is_digit c && match s with EmptyString => true | _ => digits_to_end s end.
Proof. destruct s; simpl; [by rewrite andb_true_r | done]. Qed.

Lemma digits_to_end_iff s :
  digits_to_end s = true <-> s <> EmptyString /\ all_digits s = true.
Proof.
  induction s as [|c s IH].
  - simpl. split; [done | by intros [? _]].
  - rewrite digits_to_end_cons. cbn [all_digits].
    rewrite !andb_true_iff. destruct s as [|d r].
    + simpl. intuition congruence.
    + rewrite IH. intuition congruence.
Qed.

Lemma last_char_cons c d r :
  last_char (String c (String d r)) = last_char (String d r).
Proof. done. Qed.

(** A string that ends the input with digits ends in a digit. *)
Lemma digits_to_end_ends_in_digit s :
  digits_to_end s = true -> ends_in_digit s = true.
Proof.
  unfold ends_in_digit. induction s as [|c s IH]; [done |].
  rewrite digits_to_end_cons, andb_true_iff. intros [Hc Hs].
  destruct s as [|d r]; [done |]. rewrite last_char_cons. by apply IH.
Qed.

(** A non-digit anywhere rules the match at this position out. *)
Lemma digits_to_end_app_nondigit p c s :
  is_digit c = false -> digits_to_end (p +:+ String c s) = false.
Proof.
  intros Hc. induction p as [|a p IH].
  - change (EmptyString +:+ String c s) with (String c s).
    by rewrite digits_to_end_cons, Hc.
  - change (String a p +:+ String c s) with (String a (p +:+ String c s)).
    rewrite digits_to_end_cons.
    destruct (p +:+ String c s) eqn:E.
    + by destruct p.
    + rewrite IH. apply andb_false_r.
Qed.

(** The match is the run of digits behind the last non-digit. *)
Lemma match_after_nondigit p c digits :
  is_digit c = false -> digits_to_end digits = true ->
  match_digits_at_end (p +:+ String c digits) = Some digits.
Proof.
  intros Hc Hd. induction p as [|a p IH].
  - change (EmptyString +:+ String c digits) with (String c digits).
    cbn [match_digits_at_end].
    rewrite digits_to_end_cons, Hc. cbn [andb].
    destruct digits as [|d r]; [done |].
    cbn [match_digits_at_end]. by rewrite Hd.
  - change (String a p +:+ String c digits)
      with (String a (p +:+ String c digits)).
    cbn [match_digits_at_end].
    pose proof (digits_to_end_app_nondigit (String a p) c digits Hc) as Hn.
    change (String a p +:+ String c digits)
      with (String a (p +:+ String c digits)) in Hn.
    by rewrite Hn.
Qed.

(** [match] returns [null] exactly when the subject does not end in a
    digit. *)
Lemma match_none_iff s :
  match_digits_at_end s = None <-> ends_in_digit s = false.
Proof.
  induction s as [|c s IH]; [done |].
  cbn [match_digits_at_end].
  destruct (digits_to_end (String c s)) eqn:E.
  - apply digits_to_end_ends_in_digit in E. rewrite E. split; discriminate.
  - destruct s as [|d r].
    + simpl in E. unfold ends_in_digit. simpl. by rewrite E.
    + rewrite IH. unfold ends_in_digit. by rewrite last_char_cons.
Qed.

(** What [match] returns is a non-empty run of digits that ends the
    subject. *)
Lemma match_some s m :
  match_digits_at_end s = Some m ->
  digits_to_end m = true /\ exists p, s = p +:+ m.
Proof.
  revert m. induction s as [|c s IH]; intros m; [done |].
  cbn [match_digits_at_end].
  destruct (digits_to_end (String c s)) eqn:E.
  - intros [= <-]. split; [done |]. by exists EmptyString.
  - intros H. destruct (IH _ H) as [Hm [p ->]].
    split; [done |]. by exists (String c p).
Qed.

Lemma match_of_ends_in_digit s :
  ends_in_digit s = true ->
  exists m, match_digits_at_end s = Some m /\ digits_to_end m = true.
Proof.
  intros H. destruct (match_digits_at_end s) as [m|] eqn:E.
  - exists m. split; [done |]. by apply match_some in E as [? _].
  - apply match_none_iff in E. congruence.
Qed.

End RegexFacts.

(** ** Deriving, serializing and restoring a user *)

Section Identity.

Lemma match_index0_some s m :
  Regex.match_digits_at_end s = Some m -> match_index0 s = inr m.
Proof. unfold match_index0. by intros ->. Qed.

Lemma match_index0_none s :
  Regex.ends_in_digit s = false -> match_index0 s = inl TypeError.
Proof.
  intros H. apply match_none_iff in H. unfold match_index0. by rewrite H.
Qed.

Lemma validate_some s m :
  Regex.match_digits_at_end s = Some m ->
  validate s = Called (DoneWith {| identifier := s; steamId := m |}).
Proof. intros H. unfold validate. by rewrite (match_index0_some _ _ H). Qed.

Lemma deserializeUser_some s m :
  Regex.match_digits_at_end s = Some m ->
  deserializeUser s = Called (DoneWith {| identifier := s; steamId := m |}).
Proof. intros H. unfold deserializeUser. by rewrite (match_index0_some _ _ H). Qed.

(** The slash in front of the digits is not a digit, so the digits
    behind it are the whole match. *)
Lemma match_prefix_slash_digits prefix digits :
  digits <> EmptyString -> Regex.all_digits digits = true ->
  Regex.match_digits_at_end (prefix +:+ "/" +:+ digits) = Some digits.
Proof.
  intros Hne Hall.
  change ("/" +:+ digits) with (String "/"%char digits).
  apply match_after_nondigit; [done |].
  by apply digits_to_end_iff.
Qed.

End Identity.

(** C1.  For a claimed identifier [<prefix>/<digits>] (the digits a
    non-empty run of ASCII digits), the user that the validate callback
    derives has the digits as its numeric id, and deserializing the key
    that [serializeUser] produces for it gives back the same user; any
    user object carrying that claimed identifier deserializes to it, so
    the numeric id is the same after the round trip. *)
Theorem deserialize_serialize_roundtrip (prefix digits : string) :
  digits <> EmptyString ->
  Regex.all_digits digits = true ->
  let claimed := prefix +:+ "/" +:+ digits in
  let u := {| identifier := claimed; steamId := digits |} in
  validate claimed = Called (DoneWith u) /\
  deserialize_serialized u = Called (DoneWith u) /\
  (forall u', deserialize_serialized u = Called (DoneWith u') ->
              steamId u' = steamId u) /\
  (forall v, identifier v = claimed ->
             deserialize_serialized v = Called (DoneWith u)).
Proof.
  intros Hne Hall claimed u.
  pose proof (match_prefix_slash_digits prefix digits Hne Hall) as Hm.
  fold claimed in Hm.
  assert (Hv : forall v, identifier v = claimed ->
                         deserialize_serialized v = Called (DoneWith u)).
  { intros v Hv. unfold deserialize_serialized, serializeUser.
    rewrite Hv. by apply deserializeUser_some. }
  repeat split.
  - by apply validate_some.
  - by apply Hv.
  - intros u' Hu'. rewrite (Hv u eq_refl) in Hu'. by injection Hu' as <-.
  - exact Hv.
Qed.

Lemma deserialize_serialize_roundtrip_witness :
  "76561197975696140" <> EmptyString /\
  Regex.all_digits "76561197975696140" = true /\
  let claimed := "http://steamcommunity.com/openid/id" +:+ "/" +:+ "76561197975696140" in
  let u := {| identifier := claimed; steamId := "76561197975696140" |} in
  validate claimed = Called (DoneWith u) /\
  deserialize_serialized u = Called (DoneWith u) /\
  (forall u', deserialize_serialized u = Called (DoneWith u') ->
              steamId u' = steamId u) /\
  (forall v, identifier v = claimed ->
             deserialize_serialized v = Called (DoneWith u)).
Proof.
  split; [discriminate | split; [reflexivity |]].
  apply (deserialize_serialize_roundtrip
           "http://steamcommunity.com/openid/id" "76561197975696140").
  - discriminate.
  - reflexivity.
Defined.

(** C2, as the script has it.  For a claimed identifier that does not end
    in a digit, [match] returns [null] and reading its element [0] throws
    a [TypeError]: both the validate callback and [deserializeUser] end
    with that exception, [done] is never called (so the outcome is none
    of [done(err)], [done(null, false)] and [done(null, user)]), and the
    exception is named [TypeError]. *)
Theorem no_numeric_suffix_throws_TypeError (claimed : string) :
  Regex.ends_in_digit claimed = false ->
  validate claimed = Throws TypeError /\
  deserializeUser claimed = Throws TypeError /\
  error_name TypeError = "TypeError" /\
  (forall d, validate claimed <> Called d) /\
  (forall d, deserializeUser claimed <> Called d).
Proof.
  intros H. apply match_index0_none in H.
  unfold validate, deserializeUser. rewrite H.
  repeat split; try done.
Qed.

Lemma no_numeric_suffix_throws_TypeError_witness :
  Regex.ends_in_digit "http://provider.example/openid/id/" = false /\
  validate "http://provider.example/openid/id/" = Throws TypeError /\
  deserializeUser "http://provider.example/openid/id/" = Throws TypeError /\
  error_name TypeError = "TypeError" /\
  (forall d, validate "http://provider.example/openid/id/" <> Called d) /\
  (forall d, deserializeUser "http://provider.example/openid/id/" <> Called d).
Proof.
  split; [reflexivity |].
  apply (no_numeric_suffix_throws_TypeError "http://provider.example/openid/id/").
  reflexivity.
Defined.

(** C2 as stated fails: for [http://provider.example/openid/id/] the
    derivation does not end with an error named
    [MalformedIdentifierError]; the exception that escapes is a
    [TypeError]. *)
Lemma no_MalformedIdentifierError :
  ~ (exists e, validate "http://provider.example/openid/id/" = Throws e /\
               error_name e = "MalformedIdentifierError").
Proof.
  intros [e [_ Hname]]. destruct e. vm_compute in Hname. discriminate.
Qed.

(** C7.  The claimed identifier
    [http://provider.example/openid/id/76561197975696140] yields the
    numeric id [76561197975696140], and [serializeUser] hands [done] the
    [identifier] field of whatever user it is given. *)
Theorem example_numeric_id_and_serialize_projection :
  validate "http://provider.example/openid/id/76561197975696140" =
    Called (DoneWith
      {| identifier := "http://provider.example/openid/id/76561197975696140";
         steamId := "76561197975696140" |}) /\
  (forall u : User, serializeUser u = Called (DoneWith (identifier u))).
Proof. split; [vm_compute; reflexivity | reflexivity]. Qed.

(** C10.  For a claimed identifier that ends in at least one digit, the
    validate callback calls [done(null, user)] with the object built from
    the identifier and the digits at its end: no exception, no
    [done(err)], no [done(null, false)]. *)
Theorem validate_accepts_every_numeric_suffix (claimed : string) :
  Regex.ends_in_digit claimed = true ->
  exists digits,
    validate claimed =
      Called (DoneWith {| identifier := claimed; steamId := digits |}) /\
    digits <> EmptyString /\
    Regex.all_digits digits = true /\
    (forall e, validate claimed <> Called (DoneError e)) /\
    validate claimed <> Called DoneFalse /\
    (forall e, validate claimed <> Throws e).
Proof.
  intros H. destruct (match_of_ends_in_digit _ H) as [m [Hm Hd]].
  exists m. rewrite (validate_some _ _ Hm).
  apply digits_to_end_iff in Hd as [Hne Hall].
  repeat split; try done.
Qed.

Lemma validate_accepts_every_numeric_suffix_witness :
  Regex.ends_in_digit "https://www.google.com/accounts/o8/id?id=1016730112881507946"
    = true /\
  exists digits,
    validate "https://www.google.com/accounts/o8/id?id=1016730112881507946" =
      Called (DoneWith
        {| identifier := "https://www.google.com/accounts/o8/id?id=1016730112881507946";
           steamId := digits |}) /\
    digits <> EmptyString /\
    Regex.all_digits digits = true /\
    (forall e, validate "https://www.google.com/accounts/o8/id?id=1016730112881507946"
               <> Called (DoneError e)) /\
    validate "https://www.google.com/accounts/o8/id?id=1016730112881507946"
      <> Called DoneFalse /\
    (forall e, validate "https://www.google.com/accounts/o8/id?id=1016730112881507946"
               <> Throws e).
Proof.
  split; [reflexivity |].
  apply (validate_accepts_every_numeric_suffix
           "https://www.google.com/accounts/o8/id?id=1016730112881507946").
  reflexivity.
Defined.

(** ** The routes *)

Section Routes.

Lemma logout_user request : user (logout request) = None.
Proof. done. Qed.

Lemma logout_session_user request :
  session_user (session (logout request)) = None.
Proof.
  unfold session_user, logout. simpl.
  by destruct (passport (session request)).
Qed.

Lemma logout_headers request : headers (logout request) = headers request.
Proof. done. Qed.

(** The page for a request without a user, by the truthiness of the
    [steamid] query parameter. *)
Lemma get_root_anonymous_body request :
  user request = None ->
  body (snd (get_root request fresh_response)) =
    if Js.truthy_query (query request !! "steamid")
    then doctype_html +:+ not_logged_in +:+ login_form_open +:+ login_form_button
    else doctype_html +:+ login_form_open +:+ login_form_button.
Proof.
  intros Hu. unfold get_root. rewrite Hu.
  destruct (Js.truthy_query (query request !! "steamid")); reflexivity.
Qed.

End Routes.

(** C3, as the script has it.  When the request reaches the handler with
    the user that the validate callback derived from the claimed
    identifier, the handler redirects to [/?steamid=<digits>], where the
    digits are the match of [/\d+$/] on the claimed identifier; the
    request and its session are left as they were. *)
Theorem return_redirects_with_steamid
    (request : Request) (response : Response) (claimed : string) (u : User) :
  validate claimed = Called (DoneWith u) ->
  user request = Some u ->
  exists digits,
    Regex.match_digits_at_end claimed = Some digits /\
    steamId u = digits /\
    auth_openid_return request response =
      (request, redirect ("/?steamid=" +:+ digits) response) /\
    location (snd (auth_openid_return request response)) =
      Some ("/?steamid=" +:+ digits).
Proof.
  intros Hv Hu. unfold validate, match_index0 in Hv.
  destruct (Regex.match_digits_at_end claimed) as [m|] eqn:Hm; [|done].
  injection Hv as <-. exists m.
  unfold auth_openid_return. rewrite Hu. by simpl.
Qed.

Lemma return_redirects_with_steamid_witness :
  let claimed := "http://steamcommunity.com/openid/id/76561197975696140" in
  let u := {| identifier := claimed; steamId := "76561197975696140" |} in
  let request :=
    {| user := Some u;
       session := {| passport := Some {| passport_user := Some claimed |} |};
       query := ∅; headers := ∅ |} in
  validate claimed = Called (DoneWith u) /\
  user request = Some u /\
  exists digits,
    Regex.match_digits_at_end claimed = Some digits /\
    steamId u = digits /\
    auth_openid_return request fresh_response =
      (request, redirect ("/?steamid=" +:+ digits) fresh_response) /\
    location (snd (auth_openid_return request fresh_response)) =
      Some ("/?steamid=" +:+ digits).
Proof.
  intros claimed u request.
  split; [reflexivity | split; [reflexivity |]].
  apply (return_redirects_with_steamid request fresh_response claimed u);
    reflexivity.
Defined.

(** C3 as stated fails: after a successful callback for
    [http://steamcommunity.com/openid/id/76561197975696140] the redirect
    target is [/?steamid=76561197975696140], not
    [/?id=76561197975696140]. *)
Lemma return_does_not_redirect_to_id :
  let claimed := "http://steamcommunity.com/openid/id/76561197975696140" in
  let request :=
    {| user := Some {| identifier := claimed; steamId := "76561197975696140" |};
       session := {| passport := Some {| passport_user := Some claimed |} |};
       query := ∅; headers := ∅ |} in
  validate claimed = Called (DoneWith
    {| identifier := claimed; steamId := "76561197975696140" |}) /\
  location (snd (auth_openid_return request fresh_response)) =
    Some "/?steamid=76561197975696140" /\
  location (snd (auth_openid_return request fresh_response)) <>
    Some ("/?id=" +:+ "76561197975696140").
Proof. repeat split. discriminate. Qed.

(** C4.  What the route does with a provider-rejected assertion: the
    middleware of line 402 answers it with status 401 and the function of
    lines 403-409 is not called.  The request and its session are left
    as they were, so nothing is stored and an anonymous session stays
    [ANONYMOUS]; but no redirect is sent, so the client is not taken to
    [/?failed], the target that the function's own [else] branch would
    give. *)
Theorem rejected_return_is_answered_401 (request : Request) (response : Response) :
  auth_openid_return_route ProviderRejected request response
    = Unauthorized request /\
  (forall request' response',
     auth_openid_return_route ProviderRejected request response
       <> Handled request' response') /\
  (user request = None ->
   session_user (session request) = None ->
   auth_state request = ANONYMOUS /\
   location (snd (auth_openid_return request response)) = Some "/?failed").
Proof.
  split; [done |]. split; [done |].
  intros Hu Hs. unfold auth_state, auth_openid_return. by rewrite Hu, Hs.
Qed.

(** C5, as the script has it.  From every prior state the logout handler
    ends normally with a cleared login ([request.user] unset, no user key
    in the session, state [ANONYMOUS]) and a redirect; the target is the
    value of the [Referer] header when the header is there and is not the
    empty string, and the site root [/] otherwise. *)
Theorem logout_clears_and_redirects (request : Request) (response : Response) :
  let '(request', response') := auth_logout request response in
  user request' = None /\
  session_user (session request') = None /\
  auth_state request' = ANONYMOUS /\
  ended response' = true /\
  location response' =
    Some (match request_get request "Referer" with
          | Some referer =>
              if decide (referer = EmptyString) then "/" else referer
          | None => "/"
          end).
Proof.
  unfold auth_logout. cbn [fst snd].
  repeat split.
  - apply logout_session_user.
  - unfold auth_state. by rewrite logout_user, logout_session_user.
  - unfold redirect, location, request_get. rewrite logout_headers.
    unfold Js.or_string. destruct (headers request !! "Referer") as [r|]; [|done].
    by destruct r.
Qed.

(** C5 as stated fails: a request whose [Referer] header is there with an
    empty value is redirected to the site root, not to the header's
    value. *)
Lemma logout_empty_referer_goes_to_root :
  let request :=
    {| user := None; session := {| passport := None |};
       query := ∅; headers := {[ "Referer" := EmptyString ]} |} in
  request_get request "Referer" = Some EmptyString /\
  location (snd (auth_logout request fresh_response)) = Some "/" /\
  location (snd (auth_logout request fresh_response)) <>
    request_get request "Referer".
Proof. repeat split. discriminate. Qed.

(** C9, as the script has it.  For a request to [GET /] without a user,
    the page contains [Not logged in.] exactly when the [steamid] query
    parameter is truthy (a non-empty string, or an array or object); the
    login form is on the page in either case. *)
Theorem root_not_logged_in_iff_truthy_steamid (request : Request) :
  user request = None ->
  let page := body (snd (get_root request fresh_response)) in
  (contains not_logged_in page = true <->
   Js.truthy_query (query request !! "steamid") = true) /\
  contains login_form page = true /\
  ended (snd (get_root request fresh_response)) = true.
Proof.
  intros Hu page. subst page. rewrite (get_root_anonymous_body _ Hu).
  destruct (Js.truthy_query (query request !! "steamid")).
  - repeat split; vm_compute; reflexivity.
  - repeat split; try (vm_compute; reflexivity); vm_compute; discriminate.
Qed.

Lemma root_not_logged_in_iff_truthy_steamid_witness :
  let request :=
    {| user := None; session := {| passport := None |};
       query := {[ "steamid" := QString "76561197975696140" ]}; headers := ∅ |} in
  user request = None /\
  let page := body (snd (get_root request fresh_response)) in
  (contains not_logged_in page = true <->
   Js.truthy_query (query request !! "steamid") = true) /\
  contains login_form page = true /\
  ended (snd (get_root request fresh_response)) = true.
Proof.
  intros request. split; [reflexivity |].
  apply (root_not_logged_in_iff_truthy_steamid request). reflexivity.
Defined.

(** C9 as stated fails: for [GET /?steamid=] the query holds a [steamid]
    parameter, yet the page does not contain [Not logged in.]. *)
Lemma root_empty_steamid_shows_no_message :
  let request :=
    {| user := None; session := {| passport := None |};
       query := {[ "steamid" := QString EmptyString ]}; headers := ∅ |} in
  user request = None /\
  is_Some (query request !! "steamid") /\
  contains not_logged_in (body (snd (get_root request fresh_response))) = false.
Proof. repeat split. by eexists. Qed.

(** ** The promise chain of [doPromise] *)

Section PromiseChain.
Import Promise.

Lemma step_idle st : jobs st = [] -> step st = st.
Proof. unfold step. by intros ->. Qed.

(** Once the queue is empty, nothing changes any more. *)
Lemma run_idle n st : jobs st = [] -> run n st = st.
Proof.
  intros H. induction n as [|n IH]; [done |].
  simpl. by rewrite (step_idle _ H).
Qed.

Lemma run_add a b st : run (a + b) st = run b (run a st).
Proof.
  revert st. induction a as [|a IH]; intros st; [done |].
  simpl. apply IH.
Qed.

(** If the queue is empty after [K] turns, every later state is the
    state after at most [K] turns. *)
Lemma run_bounded K st n :
  jobs (run K st) = [] -> exists k, k <= K /\ run n st = run k st.
Proof.
  intros H. destruct (decide (n <= K)) as [Hle|Hgt].
  - by exists n.
  - exists K. split; [done |].
    replace n with (K + (n - K)) by lia.
    rewrite run_add. by apply run_idle.
Qed.

End PromiseChain.

(** Closes a goal about the state [run n st] of a run whose queue is
    empty at [st]: the later turns do nothing, and the rest is computed. *)
Ltac run_to_idle := rewrite run_idle; vm_compute; reflexivity.

(** C6.  The chain writes its three values to the console in the order
    1, 2, 3: at every moment the console holds an initial segment of the
    three entries (the first also shows the fourth promise), and once the
    eight queued jobs have run the console holds all three and the queue
    is empty.  The order does not depend on the fourth promise: whatever
    value its executor resolves or rejects it with, or if it is left
    pending, the first arguments logged are 1, 2, 3. *)
Theorem doPromise_logs_in_order :
  let locals := fst (Promise.doPromise Promise.initial) in
  let st0 := snd (Promise.doPromise Promise.initial) in
  let one_two_three :=
    [Some (Promise.VNumber 1); Some (Promise.VNumber 2); Some (Promise.VNumber 3)] in
  (forall n, exists k,
     Promise.console (Promise.run n st0) = take k (Promise.expected_console locals)) /\
  (forall n,
     Promise.jobs (Promise.run (8 + n) st0) = [] /\
     Promise.console (Promise.run (8 + n) st0) = Promise.expected_console locals /\
     Promise.logged_first (Promise.run (8 + n) st0) = one_two_three) /\
  (forall (w : Promise.Value) n,
     Promise.logged_first
       (Promise.run (10 + n)
          (snd (Promise.async_doPromise
                  (fun p => Promise.resolve_promise p w) Promise.initial)))
     = one_two_three) /\
  (forall (w : Promise.Value) n,
     Promise.logged_first
       (Promise.run (10 + n)
          (snd (Promise.async_doPromise
                  (fun p => Promise.reject_promise p w) Promise.initial)))
     = one_two_three) /\
  (forall n,
     Promise.logged_first
       (Promise.run (10 + n)
          (snd (Promise.async_doPromise (fun _ st => st) Promise.initial)))
     = one_two_three).
Proof.
  intros locals st0 one_two_three.
  assert (Hidle : Promise.jobs (Promise.run 8 st0) = []) by (vm_compute; reflexivity).
  split; [| split; [| split; [| split]]].
  - intros n. exists (length (Promise.console (Promise.run n st0))).
    destruct (run_bounded 8 st0 n Hidle) as [k [Hk ->]].
    do 9 (destruct k as [|k]; [vm_compute; reflexivity |]). lia.
  - intros n. rewrite run_add, (run_idle _ _ Hidle).
    repeat split; vm_compute; reflexivity.
  - (* a promise [q] as the resolution: by the place of [q] in the store *)
    intros w n. rewrite run_add.
    destruct w as [|z|q|]; [run_to_idle .. | | run_to_idle].
    do 13 (destruct q as [|q]; [run_to_idle |]).
    run_to_idle.
  - intros w n. rewrite run_add. run_to_idle.
  - intros n. rewrite run_add. run_to_idle.
Qed.

(** C8.  At every moment of the run, the four promises that [doPromise]
    constructs are fulfilled (with 1, 2, 3 and [undefined]), no promise
    in the store is rejected, no job in the queue is a rejection reaction
    or runs the callback given to [catch], and the console holds nothing
    but entries of the three [then] callbacks. *)
Theorem doPromise_never_reaches_catch :
  let locals := fst (Promise.doPromise Promise.initial) in
  let st0 := snd (Promise.doPromise Promise.initial) in
  forall n,
    let st := Promise.run n st0 in
    Promise.promises st !! Promise.p1 locals
      = Some (Promise.Fulfilled (Promise.VNumber 1)) /\
    Promise.promises st !! Promise.p2 locals
      = Some (Promise.Fulfilled (Promise.VNumber 2)) /\
    Promise.promises st !! Promise.p3 locals
      = Some (Promise.Fulfilled (Promise.VNumber 3)) /\
    Promise.promises st !! Promise._await locals
      = Some (Promise.Fulfilled Promise.VUndefined) /\
    Forall (fun s => Promise.is_rejected s = false) (Promise.promises st) /\
    Forall (fun j => Promise.is_reject_job j = false /\
                     Promise.invokes Promise.on_err j = false)
           (Promise.jobs st) /\
    Forall (fun args => args ∈ Promise.expected_console locals) (Promise.console st).
Proof.
  intros locals st0 n st. subst st.
  assert (Hidle : Promise.jobs (Promise.run 8 st0) = []) by (vm_compute; reflexivity).
  destruct (run_bounded 8 st0 n Hidle) as [k [Hk ->]].
  do 9 (destruct k as [|k];
        [apply (bool_decide_unpack _); vm_compute; reflexivity |]).
  lia.
Qed.

(** * Further properties of the script *)

(** ** The numeric suffix *)

Section NumericSuffix.
Import Regex.

Lemma string_app_assoc (a b c : string) : (a +:+ b) +:+ c = a +:+ (b +:+ c).
Proof.
  induction a as [|x a IH]; [done |].
  change ((String x a +:+ b) +:+ c) with (String x ((a +:+ b) +:+ c)).
  by rewrite IH.
Qed.

(** A non-empty string that does not end in a digit ends in a non-digit. *)
Lemma not_ends_in_digit_split p :
  p <> EmptyString -> ends_in_digit p = false ->
  exists p0 c, p = p0 +:+ String c EmptyString /\ is_digit c = false.
Proof.
  induction p as [|a p IH]; [done |]. intros _ H.
  destruct p as [|b r].
  - exists EmptyString, a. by split.
  - unfold ends_in_digit in H. rewrite last_char_cons in H.
    destruct (IH ltac:(done) H) as [p0 [c [Hp Hc]]].
    exists (String a p0), c. split; [| done].
    change (String a p0 +:+ String c EmptyString)
      with (String a (p0 +:+ String c EmptyString)).
    by rewrite <- Hp.
Qed.

(** The digits found are the longest run at the end: what stands in front
    of them does not end in a digit. *)
Lemma match_some_maximal s m :
  match_digits_at_end s = Some m ->
  exists p, s = p +:+ m /\ ends_in_digit p = false.
Proof.
  revert m. induction s as [|c s IH]; intros m; [done |].
  cbn [match_digits_at_end].
  destruct (digits_to_end (String c s)) eqn:E.
  - intros [= <-]. by exists EmptyString.
  - intros H. destruct (IH _ H) as [p [-> Hp]].
    exists (String c p). split; [done |].
    destruct p as [|b r].
    + (* [c] stands right in front of the match, so it is no digit *)
      change (EmptyString +:+ m) with m in E, H.
      apply match_some in H as [Hm _].
      rewrite digits_to_end_cons in E.
      destruct m as [|d r]; [done |]. rewrite Hm, andb_true_r in E.
      unfold ends_in_digit. simpl. exact E.
    + unfold ends_in_digit in *. by rewrite last_char_cons.
Qed.

(** A split into a part that does not end in a digit and a run of digits
    is the split that [match] finds. *)
Lemma match_of_split p m :
  ends_in_digit p = false -> digits_to_end m = true ->
  match_digits_at_end (p +:+ m) = Some m.
Proof.
  intros Hp Hm. destruct (decide (p = EmptyString)) as [-> | Hne].
  - change (EmptyString +:+ m) with m.
    destruct m as [|d r]; [done |]. cbn [match_digits_at_end]. by rewrite Hm.
  - destruct (not_ends_in_digit_split p Hne Hp) as [p0 [c [-> Hc]]].
    rewrite string_app_assoc.
    change (String c EmptyString +:+ m) with (String c m).
    by apply match_after_nondigit.
Qed.

(** What an accepted identifier and its user look like. *)
Lemma validate_accepted_shape claimed u :
  validate claimed = Called (DoneWith u) ->
  identifier u = claimed /\
  steamId u <> EmptyString /\
  all_digits (steamId u) = true /\
  match_digits_at_end claimed = Some (steamId u).
Proof.
  unfold validate, match_index0.
  destruct (match_digits_at_end claimed) as [m|] eqn:Hm; [| done].
  intros [= <-]. cbn [identifier steamId].
  destruct (match_some _ _ Hm) as [Hd _].
  by apply digits_to_end_iff in Hd as [Hne Hall].
Qed.

End NumericSuffix.

(** X1.  The validate callback accepts a claimed identifier with the user
    [u] exactly when [u] keeps the identifier and its [steamId] is the
    longest run of digits at the end of it: a non-empty run of digits,
    with a text in front of it that does not end in a digit. *)
Theorem validate_accepts_iff_longest_digit_suffix (claimed : string) (u : User) :
  validate claimed = Called (DoneWith u) <->
  identifier u = claimed /\
  steamId u <> EmptyString /\
  Regex.all_digits (steamId u) = true /\
  exists p, claimed = p +:+ steamId u /\ Regex.ends_in_digit p = false.
Proof.
  split.
  - unfold validate, match_index0.
    destruct (Regex.match_digits_at_end claimed) as [m|] eqn:Hm; [| done].
    intros [= <-]. cbn [identifier steamId].
    destruct (match_some _ _ Hm) as [Hd _].
    apply digits_to_end_iff in Hd as [Hne Hall].
    repeat split; try done. by apply match_some_maximal.
  - intros (Hid & Hne & Hall & p & Hp & Hend).
    destruct u as [i m]. cbn [identifier steamId] in *. subst i.
    rewrite Hp at 1. rewrite Hp.
    assert (Hd : Regex.digits_to_end m = true) by by apply digits_to_end_iff.
    rewrite (validate_some _ _ (match_of_split p m Hend Hd)). by rewrite <- Hp.
Qed.

(** X2.  Every user that the validate callback hands to [done] is
    restored unchanged from its session key, whatever the shape of the
    claimed identifier in front of the digits. *)
Theorem validated_user_restores (claimed : string) (u : User) :
  validate claimed = Called (DoneWith u) ->
  serializeUser u = Called (DoneWith claimed) /\
  deserialize_serialized u = Called (DoneWith u).
Proof.
  unfold validate, match_index0.
  destruct (Regex.match_digits_at_end claimed) as [m|] eqn:Hm; [| done].
  intros [= <-]. split; [done |].
  unfold deserialize_serialized, serializeUser. cbn [identifier].
  by apply deserializeUser_some.
Qed.

Lemma validated_user_restores_witness :
  let claimed := "https://www.google.com/accounts/o8/id?id=1016730112881507946" in
  let u := {| identifier := claimed; steamId := "1016730112881507946" |} in
  validate claimed = Called (DoneWith u) /\
  serializeUser u = Called (DoneWith claimed) /\
  deserialize_serialized u = Called (DoneWith u).
Proof.
  intros claimed u. split; [reflexivity |].
  apply (validated_user_restores claimed u). reflexivity.
Defined.

(** X3.  Restoring a user from its key looks at the [identifier] alone:
    for any user object, whatever its [steamId] field holds, the restored
    user carries the same identifier, and restoring the restored user
    changes nothing more; restoring throws exactly when the identifier
    does not end in a digit. *)
Theorem restore_depends_on_identifier_only (v : User) :
  (forall u, deserialize_serialized v = Called (DoneWith u) ->
     identifier u = identifier v /\
     validate (identifier v) = Called (DoneWith u) /\
     deserialize_serialized u = Called (DoneWith u)) /\
  (forall v', identifier v' = identifier v ->
     deserialize_serialized v' = deserialize_serialized v) /\
  (deserialize_serialized v = Throws TypeError <->
   Regex.ends_in_digit (identifier v) = false).
Proof.
  unfold deserialize_serialized, serializeUser, deserializeUser, validate,
    match_index0.
  split; [| split; [| split]].
  - intros u.
    destruct (Regex.match_digits_at_end (identifier v)) eqn:Hm; [| done].
    intros [= <-]. cbn [identifier]. by rewrite Hm.
  - by intros v' ->.
  - destruct (Regex.match_digits_at_end (identifier v)) eqn:Hm; [done |].
    intros _. by apply match_none_iff.
  - intros H. apply match_none_iff in H. by rewrite H.
Qed.

(** ** What the pages and redirects show *)

Section Pages.

Lemma string_prefix_app (n b : string) : String.prefix n (n +:+ b) = true.
Proof.
  induction n as [|x n IH]; [by destruct b |].
  change (String x n +:+ b) with (String x (n +:+ b)). simpl.
  by destruct (ascii_dec x x).
Qed.

Lemma string_app_nil_r (s : string) : s +:+ EmptyString = s.
Proof.
  induction s as [|x s IH]; [done |].
  change (String x s +:+ EmptyString) with (String x (s +:+ EmptyString)).
  by rewrite IH.
Qed.

Lemma contains_here n h : String.prefix n h = true -> contains n h = true.
Proof. intros H. destruct h; simpl in *; by rewrite H. Qed.

Lemma contains_app_l n a h : contains n h = true -> contains n (a +:+ h) = true.
Proof.
  intros H. induction a as [|x a IH]; [done |].
  change (String x a +:+ h) with (String x (a +:+ h)).
  cbn [contains]. rewrite IH. apply orb_true_r.
Qed.

(** A text contains what it ends with. *)
Lemma contains_suffix n a : contains n (a +:+ n) = true.
Proof.
  apply contains_app_l, contains_here.
  rewrite <- (string_app_nil_r n) at 2. apply string_prefix_app.
Qed.

(** The page for a request with a user. *)
Lemma get_root_authenticated_body request u :
  user request = Some u ->
  body (snd (get_root request fresh_response)) =
    doctype_html
    +:+ Js.or_string (Js.and_object (passport (session request))
                                    (Js.JSON_stringify u)) "None"
    +:+ logout_form.
Proof.
  intros Hu. unfold get_root. rewrite Hu. cbn [snd send write body].
  change (body fresh_response +:+ doctype_html) with doctype_html.
  unfold logout_form. by rewrite !string_app_assoc.
Qed.

(** [JSON.stringify] of a user is never the empty string, so the
    [|| 'None'] fallback is taken only when the first operand is
    [undefined]. *)
Lemma shown_user_text (p : option PassportData) u :
  Js.or_string (Js.and_object p (Js.JSON_stringify u)) "None" =
  match p with
  | Some _ => Js.JSON_stringify u
  | None => "None"
  end.
Proof. by destruct p. Qed.

End Pages.


(** X5.  [GET /] never redirects and always ends a page that starts with
    the doctype; the page holds the logout form exactly when the request
    has a user, and then it shows the JSON text of the user when
    [session.passport] exists and [None] otherwise. *)
Theorem root_page_by_user (request : Request) :
  let response := snd (get_root request fresh_response) in
  fst (get_root request fresh_response) = request /\
  location response = None /\
  ended response = true /\
  String.prefix doctype_html (body response) = true /\
  (contains logout_form (body response) = true <-> is_Some (user request)) /\
  (forall u, user request = Some u ->
     body response =
       doctype_html
       +:+ match passport (session request) with
           | Some _ => Js.JSON_stringify u
           | None => "None"
           end
       +:+ logout_form).
Proof.
  intros response. subst response.
  split; [done |].
  split; [unfold get_root; destruct (user request);
          [done | by destruct (Js.truthy_query _)] |].
  split; [done |].
  destruct (user request) as [u|] eqn:Hu.
  - rewrite (get_root_authenticated_body _ _ Hu), shown_user_text.
    split; [apply string_prefix_app |]. split.
    + split; [by eexists |]. intros _.
      rewrite <- string_app_assoc. apply contains_suffix.
    + by intros u' [= <-].
  - rewrite (get_root_anonymous_body _ Hu).
    destruct (Js.truthy_query (query request !! "steamid")).
    + split; [vm_compute; reflexivity |]. split; [| done].
      split; [vm_compute; discriminate | by intros [? ?]].
    + split; [vm_compute; reflexivity |]. split; [| done].
      split; [vm_compute; discriminate | by intros [? ?]].
Qed.

(** X6.  The [steamId] that the return handler puts in its redirect is
    never empty: a [GET /] that carries it as the [steamid] parameter and
    has no user always shows [Not logged in.]. *)
Theorem redirected_steamid_shows_not_logged_in
    (claimed : string) (u : User) (request : Request) :
  validate claimed = Called (DoneWith u) ->
  user request = None ->
  query request !! "steamid" = Some (QString (steamId u)) ->
  Js.truthy_string (steamId u) = true /\
  contains not_logged_in (body (snd (get_root request fresh_response))) = true.
Proof.
  intros Hv Hu Hq.
  apply validate_accepted_shape in Hv as (_ & Hne & _).
  assert (Ht : Js.truthy_string (steamId u) = true) by by destruct (steamId u).
  split; [done |].
  rewrite (get_root_anonymous_body _ Hu), Hq. cbn [Js.truthy_query].
  rewrite Ht. vm_compute. reflexivity.
Qed.

Lemma redirected_steamid_shows_not_logged_in_witness :
  let claimed := "http://steamcommunity.com/openid/id/76561197975696140" in
  let u := {| identifier := claimed; steamId := "76561197975696140" |} in
  let request :=
    {| user := None; session := {| passport := None |};
       query := {[ "steamid" := QString "76561197975696140" ]}; headers := ∅ |} in
  validate claimed = Called (DoneWith u) /\
  user request = None /\
  query request !! "steamid" = Some (QString (steamId u)) /\
  Js.truthy_string (steamId u) = true /\
  contains not_logged_in (body (snd (get_root request fresh_response))) = true.
Proof.
  intros claimed u request.
  split; [reflexivity | split; [reflexivity | split; [reflexivity |]]].
  apply (redirected_steamid_shows_not_logged_in claimed u request); reflexivity.
Defined.

(** X7.  After [POST /auth/logout] the request has no user, whatever it
    had before: the page that [GET /] builds for it holds the login form
    and not the logout form, and logging out once more changes nothing. *)
Theorem logout_then_root_is_anonymous (request : Request) (response : Response) :
  let request' := fst (auth_logout request response) in
  let page := body (snd (get_root request' fresh_response)) in
  contains login_form page = true /\
  contains logout_form page = false /\
  fst (auth_logout request' response) = request' /\
  query request' = query request /\
  headers request' = headers request.
Proof.
  intros request' page. subst page request'. cbn [fst auth_logout].
  rewrite (get_root_anonymous_body _ (logout_user request)).
  split; [| split; [| split; [| done]]].
  - destruct (Js.truthy_query _); vm_compute; reflexivity.
  - destruct (Js.truthy_query _); vm_compute; reflexivity.
  - unfold logout. cbn [user session query headers passport].
    by destruct (passport (session request)).
Qed.

(** X8.  The logout handler never redirects to the empty URL: its target
    is the site root or the non-empty value of the [Referer] header, and
    it is the site root whenever the header is missing. *)
Theorem logout_target_never_empty (request : Request) (response : Response) :
  exists target,
    location (snd (auth_logout request response)) = Some target /\
    target <> EmptyString /\
    (target = "/" \/ request_get request "Referer" = Some target) /\
    (request_get request "Referer" = None -> target = "/").
Proof.
  unfold auth_logout. cbn [snd redirect location].
  unfold request_get. rewrite logout_headers.
  destruct (headers request !! "Referer") as [r|] eqn:Hr; cbn [Js.or_string].
  - destruct r as [|c r]; cbn [Js.truthy_string].
    + exists "/". split; [done | split; [done | split; [by left | done]]].
    + exists (String c r).
      split; [done | split; [done | split; [by right | done]]].
  - exists "/". split; [done | split; [done | split; [by left | done]]].
Qed.

(** ** [doPromise] on top of an earlier state *)

Section Frame.
Import Promise.

Variable base : State.
Let k := length (promises base).

Lemma lookup_map {A B} (f : A -> B) (l : list A) (i : nat) :
  map f l !! i = f <$> (l !! i).
Proof.
  revert i. induction l as [|x l IH]; intros [|i]; simpl;
    first [done | apply IH].
Qed.

Lemma insert_map {A B} (f : A -> B) (l : list A) (i : nat) (x : A) :
  <[i := f x]> (map f l) = map f (<[i := x]> l).
Proof.
  revert i. induction l as [|y l IH]; intros [|i]; simpl;
    first [done | by rewrite IH].
Qed.

Lemma framed_lookup st p :
  promises (framed base st) !! (k + p) = shift_promise k <$> (promises st !! p).
Proof.
  unfold framed. cbn [promises]. fold k.
  rewrite lookup_app_r by (unfold k; lia).
  replace (k + p - length (promises base)) with p by (unfold k; lia).
  apply lookup_map.
Qed.

Lemma framed_set_promise st p s :
  set_promise (k + p) (shift_promise k s) (framed base st) =
  framed base (set_promise p s st).
Proof.
  unfold set_promise, framed. cbn [promises jobs console]. fold k.
  f_equal. unfold k. by rewrite insert_app_r, insert_map.
Qed.

Lemma framed_enqueue st js :
  enqueue (map (shift_job k) js) (framed base st) = framed base (enqueue js st).
Proof.
  unfold enqueue, framed. cbn [promises jobs console]. fold k.
  f_equal. by rewrite map_app, app_assoc.
Qed.

Lemma framed_console_log st args :
  console_log (map (shift_value k) args) (framed base st) =
  framed base (console_log args st).
Proof.
  unfold console_log, framed. cbn [promises jobs console]. fold k.
  f_equal. by rewrite map_app, app_assoc.
Qed.

Lemma framed_allocate st :
  allocate (framed base st) =
  (k + fst (allocate st), framed base (snd (allocate st))).
Proof.
  unfold allocate, framed. cbn [promises jobs console fst snd]. fold k.
  f_equal.
  - rewrite length_app, length_map. done.
  - f_equal. by rewrite map_app, app_assoc.
Qed.

Lemma framed_fulfill st p v :
  fulfill_promise (k + p) (shift_value k v) (framed base st) =
  framed base (fulfill_promise p v st).
Proof.
  unfold fulfill_promise. rewrite framed_lookup.
  destruct (promises st !! p) as [[rs|?|?]|]; cbn [fmap option_fmap option_map shift_promise]; try done.
  change (Fulfilled (shift_value k v)) with (shift_promise k (Fulfilled v)).
  rewrite framed_set_promise, <- framed_enqueue. f_equal.
  rewrite !map_map. done.
Qed.

Lemma framed_reject st p v :
  reject_promise (k + p) (shift_value k v) (framed base st) =
  framed base (reject_promise p v st).
Proof.
  unfold reject_promise. rewrite framed_lookup.
  destruct (promises st !! p) as [[rs|?|?]|]; cbn [fmap option_fmap option_map shift_promise]; try done.
  change (Rejected (shift_value k v)) with (shift_promise k (Rejected v)).
  rewrite framed_set_promise, <- framed_enqueue. f_equal.
  rewrite !map_map. done.
Qed.

Lemma framed_resolve st p v :
  resolve_promise (k + p) (shift_value k v) (framed base st) =
  framed base (resolve_promise p v st).
Proof.
  unfold resolve_promise.
  destruct v as [|z|q|]; cbn [shift_value];
    try (by rewrite <- framed_fulfill).
  destruct (decide (q = p)) as [-> | Hne].
  - rewrite decide_True by done.
    by rewrite <- framed_reject.
  - rewrite decide_False by lia.
    by rewrite <- framed_enqueue.
Qed.

Lemma framed_then st p f r :
  then_ (k + p) (shift_callback k f) (shift_callback k r) (framed base st) =
  (k + fst (then_ p f r st), framed base (snd (then_ p f r st))).
Proof.
  unfold then_. rewrite framed_allocate.
  destruct (allocate st) as [d st'] eqn:Ha. cbn [fst snd].
  rewrite framed_lookup.
  destruct (promises st' !! p) as [[rs|v|v]|];
    cbn [fmap option_fmap option_map shift_promise fst snd]; f_equal.
  - rewrite <- framed_set_promise. cbn [shift_promise]. by rewrite map_app.
  - by rewrite <- framed_enqueue.
  - by rewrite <- framed_enqueue.
Qed.

Lemma framed_call_closure st f a :
  call_closure (shift_closure k f) (shift_value k a) (framed base st) =
  (shift_completion k (fst (call_closure f a st)),
   framed base (snd (call_closure f a st))).
Proof.
  destruct f; cbn [call_closure shift_closure fst snd shift_completion shift_value];
    by rewrite <- framed_console_log.
Qed.

Lemma framed_call_handler st type h a :
  call_handler type (shift_callback k h) (shift_value k a) (framed base st) =
  (shift_completion k (fst (call_handler type h a st)),
   framed base (snd (call_handler type h a st))).
Proof.
  destruct h as [|f|t|t]; cbn [call_handler shift_callback].
  - by destruct type.
  - apply framed_call_closure.
  - by rewrite framed_resolve.
  - by rewrite framed_reject.
Qed.

Lemma framed_run_job st j :
  run_job (shift_job k j) (framed base st) = framed base (run_job j st).
Proof.
  destruct j as [type h c a | p q]; cbn [run_job shift_job].
  - rewrite framed_call_handler.
    destruct (call_handler type h a st) as [[v|v] st']; cbn [fst snd shift_completion].
    + apply framed_resolve.
    + apply framed_reject.
  - change (ResolveFunction (k + p)) with (shift_callback k (ResolveFunction p)).
    change (RejectFunction (k + p)) with (shift_callback k (RejectFunction p)).
    by rewrite framed_then.
Qed.

(** With nothing queued in [base], a turn of the loop on top of [base]
    is the turn itself, on top of [base]. *)
Lemma framed_step st :
  jobs base = [] -> step (framed base st) = framed base (step st).
Proof.
  intros Hb. unfold step.
  destruct st as [ps js c]. unfold framed at 1. cbn [promises jobs console].
  rewrite Hb. cbn [app]. destruct js as [|j rest]; cbn [map].
  - unfold framed. cbn [promises jobs console]. by rewrite Hb.
  - rewrite <- framed_run_job. f_equal.
    unfold framed. cbn [promises jobs console]. by rewrite Hb.
Qed.

Lemma framed_run n st :
  jobs base = [] -> run n (framed base st) = framed base (run n st).
Proof.
  intros Hb. revert st. induction n as [|n IH]; intros st; [done |].
  cbn [run]. by rewrite framed_step, IH.
Qed.

Lemma framed_new_Promise_resolve st v :
  new_Promise (fun p => resolve_promise p (shift_value k v)) (framed base st) =
  (k + fst (new_Promise (fun p => resolve_promise p v) st),
   framed base (snd (new_Promise (fun p => resolve_promise p v) st))).
Proof.
  unfold new_Promise. rewrite framed_allocate.
  destruct (allocate st) as [p st']. cbn [fst snd].
  by rewrite framed_resolve.
Qed.

Lemma framed_doPromise st :
  doPromise (framed base st) =
  (shift_locals k (fst (doPromise st)), framed base (snd (doPromise st))).
Proof.
  unfold doPromise, async_doPromise, doPromise_body, catch_.
  rewrite framed_allocate. destruct (allocate st) as [result st0]. cbn [fst snd].
  pose proof (framed_new_Promise_resolve st0 (VNumber 1)) as H;
    cbn [shift_value] in H; rewrite H; clear H.
  destruct (new_Promise _ st0) as [a1 st1]. cbn [fst snd].
  pose proof (framed_new_Promise_resolve st1 (VNumber 2)) as H;
    cbn [shift_value] in H; rewrite H; clear H.
  destruct (new_Promise _ st1) as [a2 st2]. cbn [fst snd].
  pose proof (framed_new_Promise_resolve st2 (VNumber 3)) as H;
    cbn [shift_value] in H; rewrite H; clear H.
  destruct (new_Promise _ st2) as [a3 st3]. cbn [fst snd].
  pose proof (framed_new_Promise_resolve st3 VUndefined) as H;
    cbn [shift_value] in H; rewrite H; clear H.
  destruct (new_Promise _ st3) as [a4 st4]. cbn [fst snd].
  change (Call (on_p1 (k + a4) (k + a2)))
    with (shift_callback k (Call (on_p1 a4 a2))).
  change NoHandler with (shift_callback k NoHandler) at 1.
  rewrite framed_then. destruct (then_ a1 _ _ st4) as [d1 st5]. cbn [fst snd].
  change (Call (on_p2 (k + a3))) with (shift_callback k (Call (on_p2 a3))).
  change NoHandler with (shift_callback k NoHandler) at 1.
  rewrite framed_then. destruct (then_ d1 _ _ st5) as [d2 st6]. cbn [fst snd].
  change (Call on_p3) with (shift_callback k (Call on_p3)) at 1.
  change NoHandler with (shift_callback k NoHandler) at 1.
  rewrite framed_then. destruct (then_ d2 _ _ st6) as [d3 st7]. cbn [fst snd].
  change (Call on_err) with (shift_callback k (Call on_err)) at 1.
  change NoHandler with (shift_callback k NoHandler) at 1.
  rewrite framed_then. destruct (then_ d3 _ _ st7) as [d4 st8]. cbn [fst snd].
  f_equal. apply (framed_resolve st8 result VUndefined).
Qed.

Lemma framed_initial : framed base initial = base.
Proof.
  unfold framed, initial. destruct base as [ps js c]. cbn.
  by rewrite !app_nil_r.
Qed.

End Frame.

Lemma lookup_app_plus {A} (l1 l2 : list A) (i : nat) :
  (l1 ++ l2)%list !! (length l1 + i) = l2 !! i.
Proof.
  rewrite lookup_app_r by lia. f_equal. lia.
Qed.

(** The state in which [doPromise] leaves any state, and the runs on top
    of a state with an empty queue. *)
Lemma doPromise_on_top (st : Promise.State) :
  Promise.doPromise st =
  (Promise.shift_locals (length (Promise.promises st))
     (fst (Promise.doPromise Promise.initial)),
   Promise.framed st (snd (Promise.doPromise Promise.initial))).
Proof.
  pose proof (framed_doPromise st Promise.initial) as H.
  by rewrite framed_initial in H.
Qed.

Lemma run_doPromise_on_top (st : Promise.State) (n : nat) :
  Promise.jobs st = [] ->
  Promise.run n (snd (Promise.doPromise st)) =
  Promise.framed st (Promise.run n (snd (Promise.doPromise Promise.initial))).
Proof.
  intros Hidle. rewrite doPromise_on_top. cbn [snd].
  by apply framed_run.
Qed.

(** X9.  [doPromise] returns before anything is logged, in whatever state
    it is called: the console and the promises that exist are as before,
    the promise of the [async] function is already fulfilled with
    [undefined], the four promises it constructs are fulfilled, and one
    job, the call of the first [then] callback, has been put at the end of
    the queue. *)
Theorem doPromise_returns_before_logging (st : Promise.State) :
  let k := length (Promise.promises st) in
  let locals := fst (Promise.doPromise st) in
  let st' := snd (Promise.doPromise st) in
  locals = {| Promise.p1 := k + 1; Promise.p2 := k + 2;
              Promise.p3 := k + 3; Promise._await := k + 4 |} /\
  Promise.console st' = Promise.console st /\
  Promise.jobs st' =
    (Promise.jobs st ++
     [Promise.ReactionJob Promise.Fulfill
        (Promise.Call (Promise.on_p1 (k + 4) (k + 2))) (k + 5)
        (Promise.VNumber 1)])%list /\
  take k (Promise.promises st') = Promise.promises st /\
  Promise.promises st' !! (k + 0) = Some (Promise.Fulfilled Promise.VUndefined) /\
  Promise.promises st' !! (k + 1) = Some (Promise.Fulfilled (Promise.VNumber 1)) /\
  Promise.promises st' !! (k + 2) = Some (Promise.Fulfilled (Promise.VNumber 2)) /\
  Promise.promises st' !! (k + 3) = Some (Promise.Fulfilled (Promise.VNumber 3)) /\
  Promise.promises st' !! (k + 4) = Some (Promise.Fulfilled Promise.VUndefined).
Proof.
  intros k locals st'. subst locals st'. rewrite doPromise_on_top. fold k.
  set (r := Promise.doPromise Promise.initial). vm_compute in r. subst r.
  cbn [fst snd]. unfold Promise.framed, Promise.shift_locals.
  fold k. cbn [Promise.promises Promise.jobs Promise.console Promise.p1
               Promise.p2 Promise.p3 Promise._await map].
  rewrite app_nil_r.
  split; [done |]. split; [done |]. split; [done |].
  split; [by apply take_app_length |].
  unfold k. repeat split; by rewrite lookup_app_plus.
Qed.

(** X10.  Called in any state whose job queue is empty, [doPromise] does
    the same as in the empty state: the console keeps its earlier lines
    and at every moment has an initial segment of the three new entries
    behind them; after eight jobs the queue is empty again, all three
    entries are there in the order 1, 2, 3, the promises that existed
    before are as they were, and the eleven promises made since are all
    fulfilled, none is left pending. *)
Theorem doPromise_on_idle_state (st : Promise.State) :
  Promise.jobs st = [] ->
  let k := length (Promise.promises st) in
  let st0 := snd (Promise.doPromise st) in
  let entries :=
    [[Promise.VNumber 1; Promise.VPromise (k + 4)];
     [Promise.VNumber 2]; [Promise.VNumber 3]] in
  (forall n, exists j,
     Promise.console (Promise.run n st0) =
       (Promise.console st ++ take j entries)%list) /\
  (forall n,
     Promise.jobs (Promise.run (8 + n) st0) = [] /\
     Promise.console (Promise.run (8 + n) st0) =
       (Promise.console st ++ entries)%list /\
     take k (Promise.promises (Promise.run (8 + n) st0)) = Promise.promises st /\
     drop k (Promise.promises (Promise.run (8 + n) st0)) =
       Promise.Fulfilled <$>
         [Promise.VUndefined; Promise.VNumber 1; Promise.VNumber 2;
          Promise.VNumber 3; Promise.VUndefined; Promise.VNumber 2;
          Promise.VNumber 3; Promise.VUndefined; Promise.VUndefined;
          Promise.VUndefined; Promise.VUndefined]).
Proof.
  intros Hidle k st0 entries. subst st0.
  set (init0 := snd (Promise.doPromise Promise.initial)).
  assert (Hdone : Promise.jobs (Promise.run 8 init0) = [])
    by (vm_compute; reflexivity).
  split.
  - intros n. rewrite (run_doPromise_on_top st n Hidle). fold init0.
    destruct (run_bounded 8 init0 n Hdone) as [j [Hj ->]].
    exists (length (Promise.console (Promise.run j init0))).
    unfold Promise.framed. cbn [Promise.console]. fold k. f_equal.
    do 9 (destruct j as [|j]; [vm_compute; reflexivity |]). lia.
  - intros n. rewrite (run_doPromise_on_top st (8 + n) Hidle). fold init0.
    rewrite run_add, (run_idle _ _ Hdone).
    set (final := Promise.run 8 init0). vm_compute in final. subst final.
    unfold Promise.framed. fold k.
    cbn [Promise.promises Promise.jobs Promise.console map Promise.shift_value].
    rewrite Hidle. split; [done |]. split; [done |].
    split; [by apply take_app_length |].
    unfold k. by rewrite drop_app_length.
Qed.

Lemma doPromise_on_idle_state_witness :
  let st :=
    {| Promise.promises := [Promise.Fulfilled (Promise.VNumber 7); Promise.Pending []];
       Promise.jobs := [];
       Promise.console := [[Promise.VNumber 0]] |} in
  Promise.jobs st = [] /\
  let k := length (Promise.promises st) in
  let st0 := snd (Promise.doPromise st) in
  let entries :=
    [[Promise.VNumber 1; Promise.VPromise (k + 4)];
     [Promise.VNumber 2]; [Promise.VNumber 3]] in
  (forall n, exists j,
     Promise.console (Promise.run n st0) =
       (Promise.console st ++ take j entries)%list) /\
  (forall n,
     Promise.jobs (Promise.run (8 + n) st0) = [] /\
     Promise.console (Promise.run (8 + n) st0) =
       (Promise.console st ++ entries)%list /\
     take k (Promise.promises (Promise.run (8 + n) st0)) = Promise.promises st /\
     drop k (Promise.promises (Promise.run (8 + n) st0)) =
       Promise.Fulfilled <$>
         [Promise.VUndefined; Promise.VNumber 1; Promise.VNumber 2;
          Promise.VNumber 3; Promise.VUndefined; Promise.VNumber 2;
          Promise.VNumber 3; Promise.VUndefined; Promise.VUndefined;
          Promise.VUndefined; Promise.VUndefined]).
Proof.
  intros st. split; [reflexivity |].
  apply (doPromise_on_idle_state st). reflexivity.
Defined.

(** A property of every state of a run that is idle after ten turns: the
    eleven states are computed and checked one by one. *)
Ltac settle_case n :=
  match goal with
  | |- context [Promise.run n ?st0] =>
      let Hdone := fresh "Hdone" in
      let j := fresh "j" in
      let Hj := fresh "Hj" in
      assert (Hdone : Promise.jobs (Promise.run 10 st0) = [])
        by (vm_compute; reflexivity);
      destruct (run_bounded 10 st0 n Hdone) as [j [Hj ->]];
      clear Hdone;
      do 11 (destruct j as [|j];
             [apply (bool_decide_unpack _); vm_compute; reflexivity |]);
      lia
  end.

(** X11.  The callback given to [catch] never runs, however the executor
    of the fourth promise settles it (resolving or rejecting it with any
    value, or leaving it pending): at every moment no queued job runs
    that callback, none of the other promises is rejected, and the
    console holds an initial segment of the three entries. *)
Theorem catch_never_runs_however_await_settles (s : Promise.Settle) (n : nat) :
  let st :=
    Promise.run n
      (snd (Promise.async_doPromise (Promise.settle_with s) Promise.initial)) in
  Forall (fun j => Promise.invokes Promise.on_err j = false) (Promise.jobs st) /\
  Forall (fun p => Promise.is_rejected p = false) (take 4 (Promise.promises st)) /\
  Forall (fun p => Promise.is_rejected p = false) (drop 5 (Promise.promises st)) /\
  Promise.console st =
    take (length (Promise.console st))
      [[Promise.VNumber 1; Promise.VPromise 4];
       [Promise.VNumber 2]; [Promise.VNumber 3]].
Proof.
  intros st. subst st.
  destruct s as [[|z|q|] | w |]; cbn [Promise.settle_with].
  - settle_case n.
  - settle_case n.
  - do 13 (destruct q as [|q]; [settle_case n |]). settle_case n.
  - settle_case n.
  - settle_case n.
  - settle_case n.
Qed.

(** ** What the job queue never undoes *)

Section Stability.
Import Promise.

Lemma keeps_refl ps : keeps_settled ps ps.
Proof. by intros p s. Qed.

Lemma keeps_trans ps1 ps2 ps3 :
  keeps_settled ps1 ps2 -> keeps_settled ps2 ps3 -> keeps_settled ps1 ps3.
Proof. intros H12 H23 p s Hp Hs. apply H23; [by apply H12 | done]. Qed.

Lemma keeps_set_promise st p rs s :
  promises st !! p = Some (Pending rs) ->
  keeps_settled (promises st) (promises (set_promise p s st)).
Proof.
  intros Hp q s' Hq Hs. cbn [set_promise promises].
  destruct (decide (p = q)) as [<- | Hne].
  - rewrite Hp in Hq. by injection Hq as <-.
  - by rewrite list_lookup_insert_ne.
Qed.

Lemma keeps_allocate st :
  keeps_settled (promises st) (promises (snd (allocate st))).
Proof. intros p s Hp _. cbn. by apply lookup_app_l_Some. Qed.

Lemma keeps_fulfill st p v :
  keeps_settled (promises st) (promises (fulfill_promise p v st)).
Proof.
  unfold fulfill_promise.
  destruct (promises st !! p) as [[rs|?|?]|] eqn:Hp; try apply keeps_refl.
  cbn [enqueue promises]. by eapply keeps_set_promise.
Qed.

Lemma keeps_reject st p v :
  keeps_settled (promises st) (promises (reject_promise p v st)).
Proof.
  unfold reject_promise.
  destruct (promises st !! p) as [[rs|?|?]|] eqn:Hp; try apply keeps_refl.
  cbn [enqueue promises]. by eapply keeps_set_promise.
Qed.

Lemma keeps_resolve st p v :
  keeps_settled (promises st) (promises (resolve_promise p v st)).
Proof.
  unfold resolve_promise. destruct v as [|z|q|]; try apply keeps_fulfill.
  destruct (decide (q = p)); [apply keeps_reject | apply keeps_refl].
Qed.

Lemma keeps_then st p f r :
  keeps_settled (promises st) (promises (snd (then_ p f r st))).
Proof.
  unfold then_.
  pose proof (keeps_allocate st) as Ha.
  destruct (allocate st) as [d st'] eqn:E. cbn [snd] in Ha.
  destruct (promises st' !! p) as [[rs|?|?]|] eqn:Hp; cbn [snd]; try done.
  eapply keeps_trans; [exact Ha | by eapply keeps_set_promise].
Qed.

Lemma keeps_call_handler st type h a :
  keeps_settled (promises st) (promises (snd (call_handler type h a st))).
Proof.
  destruct h as [|f|t|t]; cbn [call_handler snd].
  - destruct type; apply keeps_refl.
  - destruct f; apply keeps_refl.
  - apply keeps_resolve.
  - apply keeps_reject.
Qed.

Lemma keeps_run_job st j :
  keeps_settled (promises st) (promises (run_job j st)).
Proof.
  destruct j as [type h c a | p q]; cbn [run_job].
  - pose proof (keeps_call_handler st type h a) as Hh.
    destruct (call_handler type h a st) as [[v|v] st']; cbn [snd] in Hh.
    + eapply keeps_trans; [exact Hh | apply keeps_resolve].
    + eapply keeps_trans; [exact Hh | apply keeps_reject].
  - apply keeps_then.
Qed.

Lemma keeps_step st : keeps_settled (promises st) (promises (step st)).
Proof.
  unfold step. destruct (jobs st) as [|j rest]; [apply keeps_refl |].
  apply (keeps_run_job {| promises := promises st; jobs := rest;
                          console := console st |}).
Qed.

Lemma keeps_run n st : keeps_settled (promises st) (promises (run n st)).
Proof.
  revert st. induction n as [|n IH]; intros st; [apply keeps_refl |].
  cbn [run]. eapply keeps_trans; [apply keeps_step | apply IH].
Qed.

Lemma console_fulfill st p v : console (fulfill_promise p v st) = console st.
Proof. unfold fulfill_promise. by destruct (promises st !! p) as [[?|?|?]|]. Qed.

Lemma console_reject st p v : console (reject_promise p v st) = console st.
Proof. unfold reject_promise. by destruct (promises st !! p) as [[?|?|?]|]. Qed.

Lemma console_resolve st p v : console (resolve_promise p v st) = console st.
Proof.
  unfold resolve_promise. destruct v as [|z|q|]; try apply console_fulfill.
  destruct (decide (q = p)); [apply console_reject | done].
Qed.

Lemma console_then st p f r : console (snd (then_ p f r st)) = console st.
Proof.
  unfold then_. cbn [allocate].
  by destruct (_ !! p) as [[?|?|?]|].
Qed.

(** A job writes at most one line, and only a callback of the program
    writes one. *)
Lemma console_run_job st j :
  console (run_job j st) = console st \/
  exists args, console (run_job j st) = (console st ++ [args])%list.
Proof.
  destruct j as [type h c a | p q]; cbn [run_job].
  - destruct h as [|f|t|t]; cbn [call_handler].
    + left. destruct type; [apply console_resolve | apply console_reject].
    + right. destruct f; cbn [call_closure]; eexists;
        by rewrite console_resolve.
    + left. by rewrite !console_resolve.
    + left. by rewrite console_resolve, console_reject.
  - left. apply console_then.
Qed.

Lemma console_step st :
  console (step st) = console st \/
  exists args, console (step st) = (console st ++ [args])%list.
Proof.
  unfold step. destruct (jobs st) as [|j rest]; [by left |].
  apply (console_run_job {| promises := promises st; jobs := rest;
                            console := console st |}).
Qed.

End Stability.

(** X12.  A promise that is fulfilled or rejected stays exactly as it is
    through every further turn of the job queue, in any state. *)
Theorem settled_promise_never_changes
    (st : Promise.State) (n p : nat) (s : Promise.PromiseState) :
  Promise.promises st !! p = Some s ->
  Promise.is_settled s = true ->
  Promise.promises (Promise.run n st) !! p = Some s.
Proof. intros Hp Hs. by apply (keeps_run n st p s). Qed.

Lemma settled_promise_never_changes_witness :
  let st := snd (Promise.doPromise Promise.initial) in
  Promise.promises st !! 2 = Some (Promise.Fulfilled (Promise.VNumber 2)) /\
  Promise.is_settled (Promise.Fulfilled (Promise.VNumber 2)) = true /\
  Promise.promises (Promise.run 5 st) !! 2
    = Some (Promise.Fulfilled (Promise.VNumber 2)).
Proof.
  intros st. split; [reflexivity | split; [reflexivity |]].
  apply (settled_promise_never_changes st 5 2); reflexivity.
Defined.

(** X13.  The console is only ever appended to: in any state, after any
    number of turns of the job queue the earlier lines are still there in
    front, and each turn adds at most one line. *)
Theorem console_only_grows (st : Promise.State) (n : nat) :
  exists added,
    Promise.console (Promise.run n st) = (Promise.console st ++ added)%list /\
    length added <= n.
Proof.
  revert st. induction n as [|n IH]; intros st.
  - exists []. by rewrite app_nil_r.
  - cbn [Promise.run]. destruct (IH (Promise.step st)) as [added [-> Hlen]].
    destruct (console_step st) as [-> | [args ->]].
    + exists added. split; [done | lia].
    + exists (args :: added). split; [by rewrite <- app_assoc | simpl; lia].
Qed.

(** ** The JSON text on the page *)

Section JsonText.

Lemma json_escape_plain c :
  Js.plain_char c = true -> Js.json_escape c = String c EmptyString.
Proof.
  unfold Js.plain_char, Js.json_escape.
  set (n := nat_of_ascii c).
  rewrite !andb_true_iff, !negb_true_iff, Nat.leb_le, !Nat.eqb_neq.
  intros [[Hge H34] H92].
  repeat match goal with
         | |- context [(n =? ?m)%nat] =>
             replace (n =? m)%nat with false
               by (symmetry; apply Nat.eqb_neq; lia)
         end.
  replace (n <? 32)%nat with false by (symmetry; apply Nat.ltb_ge; lia).
  done.
Qed.

Lemma json_escape_all_plain s :
  Js.all_plain s = true -> Js.json_escape_all s = s.
Proof.
  induction s as [|c s IH]; [done |].
  cbn [Js.all_plain Js.json_escape_all]. rewrite andb_true_iff.
  intros [Hc Hs]. by rewrite (json_escape_plain _ Hc), (IH Hs).
Qed.

Lemma digit_is_plain c : Regex.is_digit c = true -> Js.plain_char c = true.
Proof.
  unfold Regex.is_digit, Js.plain_char. set (n := nat_of_ascii c).
  rewrite !andb_true_iff, !negb_true_iff, !Nat.leb_le, !Nat.eqb_neq. lia.
Qed.

Lemma all_digits_all_plain s :
  Regex.all_digits s = true -> Js.all_plain s = true.
Proof.
  induction s as [|c s IH]; [done |].
  cbn [Regex.all_digits Js.all_plain]. rewrite !andb_true_iff.
  intros [Hc Hs]. split; [by apply digit_is_plain | by apply IH].
Qed.

End JsonText.

(** X14.  For a user that the validate callback accepted, the [steamId]
    is written into the JSON text without any escape, and so is a
    claimed identifier made of characters other than control characters,
    the double quote and the backslash: the page of [GET /] for a request
    with that user and a passport session is the doctype, the JSON
    object whose [identifier] field holds the claimed identifier and
    whose [steamId] field holds the digits, both between double quotes
    and otherwise unchanged, and the logout form. *)
Theorem root_page_shows_user_json
    (claimed : string) (u : User) (request : Request) :
  validate claimed = Called (DoneWith u) ->
  Js.all_plain claimed = true ->
  user request = Some u ->
  is_Some (passport (session request)) ->
  Js.json_string (steamId u) = Js.dq +:+ steamId u +:+ Js.dq /\
  body (snd (get_root request fresh_response)) =
    doctype_html
    +:+ ("{" +:+ Js.dq +:+ "identifier" +:+ Js.dq +:+ ":"
         +:+ (Js.dq +:+ claimed +:+ Js.dq)
         +:+ "," +:+ Js.dq +:+ "steamId" +:+ Js.dq +:+ ":"
         +:+ (Js.dq +:+ steamId u +:+ Js.dq) +:+ "}")
    +:+ logout_form.
Proof.
  intros Hv Hplain Hu [p Hp].
  apply validate_accepted_shape in Hv as (Hid & _ & Hall & _).
  assert (Hs : Js.json_string (steamId u) = Js.dq +:+ steamId u +:+ Js.dq).
  { unfold Js.json_string.
    by rewrite (json_escape_all_plain _ (all_digits_all_plain _ Hall)). }
  split; [exact Hs |].
  rewrite (get_root_authenticated_body _ _ Hu), shown_user_text, Hp.
  unfold Js.JSON_stringify. rewrite Hs, Hid.
  unfold Js.json_string. by rewrite (json_escape_all_plain _ Hplain).
Qed.

Lemma root_page_shows_user_json_witness :
  let claimed := "http://steamcommunity.com/openid/id/76561197975696140" in
  let u := {| identifier := claimed; steamId := "76561197975696140" |} in
  let request :=
    {| user := Some u;
       session := {| passport := Some {| passport_user := Some claimed |} |};
       query := ∅; headers := ∅ |} in
  validate claimed = Called (DoneWith u) /\
  Js.all_plain claimed = true /\
  user request = Some u /\
  is_Some (passport (session request)) /\
  Js.json_string (steamId u) = Js.dq +:+ steamId u +:+ Js.dq /\
  body (snd (get_root request fresh_response)) =
    doctype_html
    +:+ ("{" +:+ Js.dq +:+ "identifier" +:+ Js.dq +:+ ":"
         +:+ (Js.dq +:+ claimed +:+ Js.dq)
         +:+ "," +:+ Js.dq +:+ "steamId" +:+ Js.dq +:+ ":"
         +:+ (Js.dq +:+ steamId u +:+ Js.dq) +:+ "}")
    +:+ logout_form.
Proof.
  intros claimed u request.
  split; [reflexivity |]. split; [reflexivity |]. split; [reflexivity |].
  split; [by eexists |].
  apply (root_page_shows_user_json claimed u request);
    [reflexivity | reflexivity | reflexivity | by eexists].
Defined.
